(** * slist_template.h: an intrusive FIFO singly linked list over caller-owned nodes

    Shallow embedding of the three macros of [slist_template.h]
    ([SLIST_CREATE_LIST], [SLIST_DEFINE_ADD_NODE_FUNC] and
    [SLIST_FOR_EACH_NODE_PTR]) over an explicit store of nodes, followed by
    the properties of insertion and traversal.

    Nodes live in caller-owned storage, so the embedding keeps the store:
    a finite map from node addresses to node contents.  A pointer is an
    optional address, [None] standing for [NULL]. *)

From stdpp Require Import gmap list fin_maps.

(** ** Outcomes of a run

    The two loops of the header are modelled with a bound on the number of
    times they advance.  [Fault] is a dereference of an address that holds
    no node, [OutOfFuel] a loop that was still running when the bound was
    reached. *)

Inductive outcome (A : Type) : Type :=
| Done (a : A)
| Fault
| OutOfFuel.

Arguments Done {A} a.
Arguments Fault {A}.
Arguments OutOfFuel {A}.

Definition addr := positive.
Definition ptr := option addr.

(** A store to memory, as performed by [SLIST_add_T]:
    [WrHead p] is [*head = p] and [WrNext a p] is [a->next = p]. *)
Inductive event : Type :=
| WrHead (p : ptr)
| WrNext (a : addr) (p : ptr).

Section SList.

Context {T : Type}.

(** [SLIST_DECLARE_NODE_TYPE(T)]: [struct { T data; SLIST_NODE(T)* next; }] *)
Record node : Type := Node { data : T; next : ptr }.

(** The memory the list lives in: the nodes, the list handle (the variable
    declared by [SLIST_CREATE_LIST], which [SLIST_ADD_NODE] passes by
    address), and the stores executed so far, oldest first. *)
Record machine : Type := Machine {
  heap : gmap addr node;
  head : ptr;
  trace : list event
}.

Definition M (A : Type) : Type := machine → outcome (A * machine).

Definition ret {A} (a : A) : M A := λ m, Done (a, m).

Definition bind {A B} (c : M A) (k : A → M B) : M B :=
  λ m, match c m with
       | Done (a, m') => k a m'
       | Fault => Fault
       | OutOfFuel => OutOfFuel
       end.

Definition out_of_fuel {A} : M A := λ _, OutOfFuel.

Notation "'let*' x ':=' c 'in' k" := (bind c (λ x, k))
  (at level 10, x name, c at level 100, k at level 200, only parsing).
Notation "c ';;' k" := (bind c (λ _, k))
  (at level 100, k at level 200, right associativity, only parsing).

(** [*head] *)
Definition load_head : M ptr := λ m, Done (head m, m).

(** [*head = p] *)
Definition store_head (p : ptr) : M unit :=
  λ m, Done (tt, Machine (heap m) p (trace m ++ [WrHead p])).

(** [a->next] *)
Definition load_next (a : addr) : M ptr :=
  λ m, match heap m !! a with
       | Some nd => Done (next nd, m)
       | None => Fault
       end.

(** [a->data] *)
Definition load_data (a : addr) : M T :=
  λ m, match heap m !! a with
       | Some nd => Done (data nd, m)
       | None => Fault
       end.

(** [a->next = p] *)
Definition store_next (a : addr) (p : ptr) : M unit :=
  λ m, match heap m !! a with
       | Some nd =>
           Done (tt, Machine (<[a := Node (data nd) p]> (heap m)) (head m)
                             (trace m ++ [WrNext a p]))
       | None => Fault
       end.

(** [a->data = v], the caller's access to the payload ([node.data = data] in
    the header's usage notes, [node->data = 0] in its traversal example).  It
    is a store of the caller, not of [SLIST_add_T], and [trace] does not
    record it. *)
Definition store_data (a : addr) (v : T) : M unit :=
  λ m, match heap m !! a with
       | Some nd =>
           Done (tt, Machine (<[a := Node v (next nd)]> (heap m)) (head m)
                             (trace m))
       | None => Fault
       end.

(** [SLIST_CREATE_LIST(T, head_)]: [SLIST_NODE(T)* head_ = NULL], over the
    nodes [h] the caller has declared. *)
Definition SLIST_CREATE_LIST (h : gmap addr node) : machine := Machine h None [].

(** How the [while] loop of [SLIST_add_T] is left: by its [return], or by its
    condition with [curr] at the node whose [next] is [NULL]. *)
Inductive walk_exit : Type :=
| Returned
| Exited (curr : addr).

(** The loop of [SLIST_add_T], entered with [curr]:
<<
    while (curr->next != NULL) {
        if (curr == node) { return; }
        curr = curr->next;
    }
>>
    [fuel] bounds the number of times [curr] advances. *)
Fixpoint walk (fuel : nat) (node curr : addr) : M walk_exit :=
  let* nx := load_next curr in
  match nx with
  | None => ret (Exited curr)
  | Some nx' =>
      if decide (curr = node) then ret Returned
      else match fuel with
           | O => out_of_fuel
           | S fuel' => walk fuel' node nx'
           end
  end.

(** [SLIST_DEFINE_ADD_NODE_FUNC(T)], the body of
    [void SLIST_add_T(SLIST_NODE(T)** head, SLIST_NODE(T)* node)]:
<<
    if ( *head == NULL ) {
        *head = node;
        node->next = NULL;
    } else {
        SLIST_NODE(T)* curr = *head;
        while (curr->next != NULL) { ... }
        curr->next = node;
    }
    node->next = NULL;
>> *)
Definition SLIST_add (fuel : nat) (node : addr) : M unit :=
  let* hd := load_head in
  match hd with
  | None =>
      store_head (Some node) ;;
      store_next node None ;;
      store_next node None
  | Some first =>
      let* r := walk fuel node first in
      match r with
      | Returned => ret tt
      | Exited curr =>
          store_next curr (Some node) ;;
          store_next node None
      end
  end.

(** [SLIST_FOR_EACH_NODE_PTR(T, head_, node_) body]:
<<
    for (SLIST_NODE(T)* node_ = head_; node_ != NULL; node_ = node_->next) body
>>
    started at [node_]; [body] runs on the machine and on what the caller
    accumulates in [A], and [node_->next] is read after it. *)
Fixpoint for_each_from {A} (fuel : nat) (body : addr → A → M A)
    (node_ : ptr) (acc : A) : M A :=
  match node_ with
  | None => ret acc
  | Some a =>
      match fuel with
      | O => out_of_fuel
      | S fuel' =>
          let* acc' := body a acc in
          let* nx := load_next a in
          for_each_from fuel' body nx acc'
      end
  end.

Definition SLIST_FOR_EACH_NODE_PTR {A} (fuel : nat) (body : addr → A → M A)
    (acc : A) : M A :=
  let* hd := load_head in
  for_each_from fuel body hd acc.

(** Three loop bodies: collect the node pointers the loop yields, count the
    executions of the body, and read the payloads (the demo's [print_list]). *)
Definition traverse (fuel : nat) : M (list addr) :=
  SLIST_FOR_EACH_NODE_PTR fuel (λ a acc, ret (acc ++ [a])) [].

Definition count_iterations (fuel : nat) : M nat :=
  SLIST_FOR_EACH_NODE_PTR fuel (λ _ n, ret (S n)) 0.

Definition payloads (fuel : nat) : M (list T) :=
  SLIST_FOR_EACH_NODE_PTR fuel
    (λ a acc, let* d := load_data a in ret (acc ++ [d])) [].

(** The traversal example of the header, with [v] for its zero:
<<
    SLIST_FOR_EACH_NODE_PTR(uint32_t, uint32List, node) { node->data = 0; }
>> *)
Definition set_all_data (fuel : nat) (v : T) : M unit :=
  SLIST_FOR_EACH_NODE_PTR fuel (λ a _, store_data a v) tt.

(** [print_list(list)] of the demo receives the handle by value: the loop
    starts from the pointer [list_] the caller passed, not from the caller's
    variable. *)
Definition traverse_from (fuel : nat) (list_ : ptr) : M (list addr) :=
  for_each_from fuel (λ a acc, ret (acc ++ [a])) list_ [].

(** A caller that inserts the nodes [ns] one after the other, as the demo's
    [main] does. *)
Fixpoint add_all (fuel : nat) (ns : list addr) : M unit :=
  match ns with
  | [] => ret tt
  | n :: ns' => SLIST_add fuel n ;; add_all fuel ns'
  end.

(** The value a run returns, without the final machine. *)
Definition eval {A} (c : M A) (m : machine) : outcome A :=
  match c m with
  | Done (a, _) => Done a
  | Fault => Fault
  | OutOfFuel => OutOfFuel
  end.

(** ** Well-formed lists

    [lseg h p l q]: following [next] from [p] visits exactly the nodes [l]
    and arrives at [q].  A list is a segment that arrives at [NULL]. *)
Fixpoint lseg (h : gmap addr node) (p : ptr) (l : list addr) (q : ptr) : Prop :=
  match l with
  | [] => p = q
  | a :: l' =>
      p = Some a ∧
      match h !! a with
      | Some nd => lseg h (next nd) l' q
      | None => False
      end
  end.

Definition is_list (h : gmap addr node) (p : ptr) (l : list addr) : Prop :=
  lseg h p l None.

(** The members after inserting [ns] into an empty list, by the contract
    "append at the tail unless already present". *)
Definition add_member (l : list addr) (n : addr) : list addr :=
  if decide (n ∈ l) then l else l ++ [n].

Definition members (ns : list addr) : list addr := foldl add_member [] ns.

End SList.

Arguments node T : clear implicits.
Arguments machine T : clear implicits.
Arguments M T A : clear implicits.

(** ** The demo program's memory

    [demo/main.c] declares five nodes [a1 .. a5] of [SLIST_NODE(uint32_t)]
    and assigns their payloads 1 .. 5.  They are placed at the addresses
    1 .. 5; the demo does not initialise their [next] fields, which
    therefore hold arbitrary pointers here. *)
Definition a1 : addr := 1%positive.
Definition a2 : addr := 2%positive.
Definition a3 : addr := 3%positive.
Definition a4 : addr := 4%positive.
Definition a5 : addr := 5%positive.

Definition demo_nodes : gmap addr (node N) :=
  list_to_map
    [(a1, Node 1%N (Some a3)); (a2, Node 2%N (Some a2)); (a3, Node 3%N None);
     (a4, Node 4%N (Some a1)); (a5, Node 5%N (Some a5))].

(** The memory once [a1], [a2] and [a3] are linked, [a4] and [a5] still
    outside the list. *)
Definition demo_linked : machine N :=
  Machine
    (list_to_map
       [(a1, Node 1%N (Some a2)); (a2, Node 2%N (Some a3)); (a3, Node 3%N None);
        (a4, Node 4%N (Some a1)); (a5, Node 5%N (Some a5))])
    (Some a1) [].

(** The element type of the unit tests, [struct { uint8_t var1; uint8_t var2; }],
    and the two nodes of [test_WhenTwoElements_ForEachFindsThoseTwoElements]. *)
Record sTestType : Type := STestType { var1 : N; var2 : N }.

Definition test_nodes : gmap addr (node sTestType) :=
  list_to_map [(a1, Node (STestType 1 2) (Some a1));
               (a2, Node (STestType 3 4) (Some a1))].

(** A corrupted memory: [a3] links back to [a2], so the chain from [a1] never
    reaches [NULL]. *)
Definition demo_looped : machine N :=
  Machine
    (list_to_map
       [(a1, Node 1%N (Some a2)); (a2, Node 2%N (Some a3));
        (a3, Node 3%N (Some a2))])
    (Some a1) [].

(** Two lists over the same nodes: [a1, a2, a3] with its handle at [a1], and
    the machine's list [a4]. *)
Definition demo_two_lists : machine N :=
  Machine
    (list_to_map
       [(a1, Node 1%N (Some a2)); (a2, Node 2%N (Some a3)); (a3, Node 3%N None);
        (a4, Node 4%N None); (a5, Node 5%N (Some a5))])
    (Some a4) [].

(** ** Segments and well-formed lists *)

Section Shape.

Context {T : Type}.
Implicit Types (h : gmap addr (node T)) (l : list addr) (p q : ptr).

Lemma lseg_app h l1 l2 p q :
  lseg h p (l1 ++ l2) q ↔ ∃ r, lseg h p l1 r ∧ lseg h r l2 q.
Proof.
  revert p. induction l1 as [|a l1 IH]; intros p; simpl.
  - split; [eauto | by intros (r & -> & ?)].
  - split.
    + intros [-> H]. destruct (h !! a) as [nd|]; [|done].
      apply IH in H as (r & ? & ?). eauto.
    + intros (r & [-> H] & Hr). split; [done|].
      destruct (h !! a) as [nd|]; [|done]. apply IH. eauto.
Qed.

Lemma lseg_cons_inv h a l p q :
  lseg h p (a :: l) q →
  p = Some a ∧ ∃ nd, h !! a = Some nd ∧ lseg h (next nd) l q.
Proof.
  simpl. intros [-> H]. destruct (h !! a) as [nd|]; [eauto | done].
Qed.

Lemma lseg_cons h a nd l q :
  h !! a = Some nd → lseg h (next nd) l q → lseg h (Some a) (a :: l) q.
Proof. intros Ha H. simpl. by rewrite Ha. Qed.

(** The chain that starts at a pointer is determined by the heap. *)
Lemma is_list_inj h p l1 l2 : is_list h p l1 → is_list h p l2 → l1 = l2.
Proof.
  unfold is_list. revert p l2.
  induction l1 as [|a l1 IH]; intros p [|b l2]; simpl; try done.
  - intros -> [? _]. done.
  - intros [-> _] ?. done.
  - intros [-> H1] [[= <-] H2]. destruct (h !! a) as [nd|]; [|done].
    f_equal. eauto.
Qed.

(** A chain that reaches [NULL] visits no node twice. *)
Lemma is_list_NoDup h p l : is_list h p l → NoDup l.
Proof.
  revert p. induction l as [|a l IH]; intros p H; [constructor|].
  pose proof H as Hfull.
  apply lseg_cons_inv in H as (-> & nd & Ha & Htl).
  constructor; [|by eapply IH].
  intros (l1 & l2 & ->)%list_elem_of_split.
  apply lseg_app in Htl as (r & _ & Hsuf).
  pose proof Hsuf as Hsuf'.
  apply lseg_cons_inv in Hsuf' as (-> & _).
  pose proof (is_list_inj _ _ _ _ Hfull Hsuf) as Heq.
  apply (f_equal length) in Heq. simpl in Heq. rewrite length_app in Heq.
  simpl in Heq. lia.
Qed.

(** Storing into a node that the segment does not visit leaves it in place. *)
Lemma lseg_insert_ne h a nd l p q :
  a ∉ l → lseg h p l q → lseg (<[a := nd]> h) p l q.
Proof.
  revert p. induction l as [|b l IH]; intros p Hnot; simpl; [done|].
  apply not_elem_of_cons in Hnot as [Hne Hnot].
  intros [-> H]. split; [done|]. rewrite lookup_insert_ne by done.
  destruct (h !! b) as [ndb|]; [|done]. by apply IH.
Qed.

(** The last node of a list, and the segment before it. *)
Lemma is_list_snoc h p l t :
  is_list h p (l ++ [t]) ↔
  lseg h p l (Some t) ∧ ∃ nd, h !! t = Some nd ∧ next nd = None.
Proof.
  unfold is_list. rewrite lseg_app. split.
  - intros (r & Hl & Ht). apply lseg_cons_inv in Ht as (-> & nd & Ht & Hn).
    simpl in Hn. eauto.
  - intros (Hl & nd & Ht & Hn). exists (Some t). split; [done|].
    eapply lseg_cons; [done|]. by rewrite Hn.
Qed.

(** Appending [n] behind the tail [t]: the two stores of the [else] branch. *)
Lemma is_list_append h p l t n dt dn :
  is_list h p (l ++ [t]) → n ∉ l ++ [t] →
  is_list (<[n := Node dn None]> (<[t := Node dt (Some n)]> h)) p
          ((l ++ [t]) ++ [n]).
Proof.
  intros Hl Hn. pose proof (is_list_NoDup _ _ _ Hl) as Hnd.
  apply NoDup_app in Hnd as (_ & Ht & _).
  apply is_list_snoc in Hl as (Hseg & _).
  apply is_list_snoc. split.
  - apply lseg_insert_ne; [done|]. apply lseg_app. exists (Some t). split.
    + apply lseg_insert_ne; [|done]. intros ?. eapply Ht; [done|]. by left.
    + eapply lseg_cons; [apply lookup_insert_eq | done].
  - eexists. split; [apply lookup_insert_eq | done].
Qed.

End Shape.

(** ** The two loops on a well-formed list *)

Section Loops.

Context {T : Type}.
Implicit Types (m : machine T) (l : list addr) (p : ptr).

(** A loop body that only accumulates: the loop folds it over the chain and
    leaves the machine alone. *)
Lemma for_each_from_fold {A} (f : addr → A → A) m l :
  ∀ p acc fuel,
    is_list (heap m) p l → length l ≤ fuel →
    for_each_from fuel (λ a x, ret (f a x)) p acc m
    = Done (foldl (λ x a, f a x) acc l, m).
Proof.
  induction l as [|a l IH]; intros p acc fuel Hl Hfuel.
  - unfold is_list in Hl. simpl in Hl. subst p. by destruct fuel.
  - apply lseg_cons_inv in Hl as (-> & nd & Ha & Htl).
    destruct fuel as [|fuel]; simpl in Hfuel; [lia|].
    simpl. unfold bind at 1. simpl. unfold bind at 1, load_next at 1.
    rewrite Ha. apply IH; [done | lia].
Qed.

Lemma foldl_snoc (l acc : list addr) :
  foldl (λ x a, x ++ [a]) acc l = acc ++ l.
Proof.
  revert acc. induction l as [|a l IH]; intros acc; simpl.
  - by rewrite app_nil_r.
  - rewrite IH, <- app_assoc. done.
Qed.

Lemma foldl_count (l : list addr) (n : nat) :
  foldl (λ k _, S k) n l = n + length l.
Proof.
  revert n. induction l as [|a l IH]; intros n; simpl; [lia|].
  rewrite IH. lia.
Qed.

Lemma traverse_is_list m l fuel :
  is_list (heap m) (head m) l → length l ≤ fuel →
  traverse fuel m = Done (l, m).
Proof.
  intros Hl Hfuel. unfold traverse, SLIST_FOR_EACH_NODE_PTR, bind, load_head.
  rewrite (for_each_from_fold (λ a x, x ++ [a]) m l) by done.
  by rewrite foldl_snoc.
Qed.

Lemma count_is_list m l fuel :
  is_list (heap m) (head m) l → length l ≤ fuel →
  count_iterations fuel m = Done (length l, m).
Proof.
  intros Hl Hfuel.
  unfold count_iterations, SLIST_FOR_EACH_NODE_PTR, bind, load_head.
  rewrite (for_each_from_fold (λ _ k, S k) m l) by done.
  by rewrite foldl_count.
Qed.

(** The loop of the insertion leaves by its condition, at the tail, when
    [node] is none of the nodes before the tail. *)
Lemma walk_exits m node t l :
  ∀ c fuel,
    is_list (heap m) (Some c) (l ++ [t]) → node ∉ l → length l ≤ fuel →
    walk fuel node c m = Done (Exited t, m).
Proof.
  induction l as [|a l IH]; intros c fuel Hl Hnot Hfuel.
  - apply (is_list_snoc _ _ []) in Hl as ([= ->] & nd & Ht & Hn).
    destruct fuel; simpl; unfold bind, load_next; by rewrite Ht, Hn.
  - apply lseg_cons_inv in Hl as ([= ->] & nd & Ha & Htl).
    apply not_elem_of_cons in Hnot as [Hne Hnot].
    destruct (next nd) as [c'|] eqn:Hnx.
    2:{ destruct l; simpl in Htl; by destruct Htl. }
    destruct fuel as [|fuel]; simpl in Hfuel; [lia|].
    simpl. unfold bind at 1, load_next at 1. rewrite Ha, Hnx.
    rewrite decide_False by done. apply IH; [done | done | lia].
Qed.

(** It leaves by its [return] when [node] is one of the nodes before the
    tail. *)
Lemma walk_returns m node l1 l2 :
  ∀ c fuel,
    is_list (heap m) (Some c) (l1 ++ node :: l2) → l2 ≠ [] → node ∉ l1 →
    length l1 ≤ fuel →
    walk fuel node c m = Done (Returned, m).
Proof.
  induction l1 as [|a l1 IH]; intros c fuel Hl Hl2 Hnot Hfuel.
  - apply lseg_cons_inv in Hl as ([= ->] & nd & Ha & Htl).
    destruct (next nd) as [c'|] eqn:Hnx.
    2:{ destruct l2; [done|]. simpl in Htl. by destruct Htl. }
    destruct fuel; simpl; unfold bind, load_next; rewrite Ha, Hnx;
      by rewrite decide_True.
  - apply lseg_cons_inv in Hl as ([= ->] & nd & Ha & Htl).
    apply not_elem_of_cons in Hnot as [Hne Hnot].
    destruct (next nd) as [c'|] eqn:Hnx.
    2:{ destruct l1; simpl in Htl; by destruct Htl. }
    destruct fuel as [|fuel]; simpl in Hfuel; [lia|].
    simpl. unfold bind at 1, load_next at 1. rewrite Ha, Hnx.
    rewrite decide_False by done. apply IH; [done | done | done | lia].
Qed.

End Loops.

(** ** The four ways through [SLIST_add_T] *)

Section Insertion.

Context {T : Type}.
Implicit Types (m : machine T) (l : list addr) (n t : addr) (nd : node T).

Lemma is_list_snoc_head (h : gmap addr (node T)) (p : ptr) l t :
  is_list h p (l ++ [t]) → ∃ c, p = Some c.
Proof.
  destruct l; intros H; apply lseg_cons_inv in H as [-> _]; eauto.
Qed.

(** Empty list: the [if] branch and the final store. *)
Lemma SLIST_add_empty m n nd fuel :
  head m = None → heap m !! n = Some nd →
  SLIST_add fuel n m
  = Done (tt, Machine (<[n := Node (data nd) None]> (heap m)) (Some n)
                      (trace m ++ [WrHead (Some n); WrNext n None; WrNext n None])).
Proof.
  intros Hhd Hn. unfold SLIST_add, bind, load_head. rewrite Hhd.
  unfold store_head, store_next. simpl. rewrite Hn. simpl.
  rewrite lookup_insert_eq. simpl.
  by rewrite insert_insert_eq, <- !app_assoc.
Qed.

(** [node] is not a member: the loop leaves at the tail, which is linked to
    [node]; then [node->next = NULL]. *)
Lemma SLIST_add_fresh m l t n nd ndt fuel :
  is_list (heap m) (head m) (l ++ [t]) → n ∉ l ++ [t] →
  heap m !! n = Some nd → heap m !! t = Some ndt → length l ≤ fuel →
  SLIST_add fuel n m
  = Done (tt, Machine (<[n := Node (data nd) None]>
                         (<[t := Node (data ndt) (Some n)]> (heap m)))
                      (head m)
                      (trace m ++ [WrNext t (Some n); WrNext n None])).
Proof.
  intros Hl Hnot Hn Ht Hfuel.
  destruct (is_list_snoc_head _ _ _ _ Hl) as [c Hc].
  apply not_elem_of_app in Hnot as [Hnl Hnt].
  apply not_elem_of_cons in Hnt as [Hnt _].
  unfold SLIST_add, bind at 1, load_head. rewrite Hc.
  unfold bind at 1. rewrite Hc in Hl.
  rewrite (walk_exits m n t l) by done.
  unfold bind, store_next. simpl. rewrite Ht. simpl.
  rewrite lookup_insert_ne by done. rewrite Hn. simpl.
  by rewrite Hc, <- !app_assoc.
Qed.

(** [node] is the tail: the loop leaves at [node] itself, [node->next = node]
    is stored, and the final [node->next = NULL] stores over it. *)
Lemma SLIST_add_tail m l t fuel :
  is_list (heap m) (head m) (l ++ [t]) → length l ≤ fuel →
  SLIST_add fuel t m
  = Done (tt, Machine (heap m) (head m)
                      (trace m ++ [WrNext t (Some t); WrNext t None])).
Proof.
  intros Hl Hfuel.
  destruct (is_list_snoc_head _ _ _ _ Hl) as [c Hc].
  pose proof (is_list_NoDup _ _ _ Hl) as Hnd.
  apply NoDup_app in Hnd as (_ & Hdisj & _).
  assert (t ∉ l) as Hnot by (intros ?; eapply Hdisj; [done | by left]).
  pose proof Hl as Hl'. apply is_list_snoc in Hl' as (_ & nd & Ht & Hnx).
  unfold SLIST_add, bind at 1, load_head. rewrite Hc.
  unfold bind at 1. rewrite Hc in Hl.
  rewrite (walk_exits m t t l) by done.
  unfold bind, store_next. simpl. rewrite Ht. simpl.
  rewrite lookup_insert_eq. simpl.
  rewrite insert_insert_eq, <- !app_assoc. simpl.
  rewrite insert_id; [by rewrite Hc|].
  rewrite Ht. destruct nd as [d nx]. simpl in Hnx. by subst nx.
Qed.

(** [node] is a member before the tail: the loop [return]s. *)
Lemma SLIST_add_dup m l1 l2 n fuel :
  is_list (heap m) (head m) (l1 ++ n :: l2) → l2 ≠ [] → length l1 ≤ fuel →
  SLIST_add fuel n m = Done (tt, m).
Proof.
  intros Hl Hl2 Hfuel.
  pose proof (is_list_NoDup _ _ _ Hl) as Hnd.
  apply NoDup_app in Hnd as (_ & Hdisj & _).
  assert (n ∉ l1) as Hnot by (intros ?; eapply Hdisj; [done | by left]).
  assert (∃ c, head m = Some c) as [c Hc].
  { destruct l1; apply lseg_cons_inv in Hl as [-> _]; eauto. }
  unfold SLIST_add, bind at 1, load_head. rewrite Hc.
  unfold bind. rewrite Hc in Hl.
  by rewrite (walk_returns m n l1 l2).
Qed.

End Insertion.

(** ** Members: the list after a sequence of insertions *)

Section Members.

Implicit Types (l ns : list addr) (n x : addr).

Lemma elem_of_add_member l n x : x ∈ add_member l n ↔ x ∈ l ∨ x = n.
Proof.
  unfold add_member. case_decide as Hin.
  - split; [by left | by intros [?| ->]].
  - rewrite elem_of_app, list_elem_of_singleton. done.
Qed.

Lemma NoDup_add_member l n : NoDup l → NoDup (add_member l n).
Proof.
  intros Hnd. unfold add_member. case_decide as Hin; [done|].
  apply NoDup_app. split_and!; [done | | apply NoDup_singleton].
  intros y Hy ->%list_elem_of_singleton. done.
Qed.

Lemma length_add_member l n : length (add_member l n) ≤ S (length l).
Proof.
  unfold add_member. case_decide; [lia|]. rewrite length_app. simpl. lia.
Qed.

Lemma elem_of_foldl_add_member ns l x :
  x ∈ foldl add_member l ns ↔ x ∈ l ∨ x ∈ ns.
Proof.
  revert l. induction ns as [|n ns IH]; intros l; simpl.
  - split; [by left | intros [?|?%elem_of_nil]; done].
  - rewrite IH, elem_of_add_member, elem_of_cons. tauto.
Qed.

Lemma NoDup_foldl_add_member ns l : NoDup l → NoDup (foldl add_member l ns).
Proof.
  revert l. induction ns as [|n ns IH]; intros l Hl; simpl; [done|].
  by apply IH, NoDup_add_member.
Qed.

Lemma length_foldl_add_member ns l :
  length (foldl add_member l ns) ≤ length l + length ns.
Proof.
  revert l. induction ns as [|n ns IH]; intros l; simpl; [lia|].
  pose proof (IH (add_member l n)). pose proof (length_add_member l n). lia.
Qed.

(** Distinct nodes, none of them a member yet, are appended in order. *)
Lemma foldl_add_member_fresh ns l :
  NoDup (l ++ ns) → foldl add_member l ns = l ++ ns.
Proof.
  revert l. induction ns as [|n ns IH]; intros l Hnd; simpl.
  - by rewrite app_nil_r.
  - assert (n ∉ l) as Hn.
    { apply NoDup_app in Hnd as (_ & Hd & _). intros ?. eapply Hd; [done|].
      by left. }
    unfold add_member. rewrite decide_False by done.
    rewrite IH; rewrite <- app_assoc; done.
Qed.

Lemma members_NoDup ns : NoDup (members ns).
Proof. apply NoDup_foldl_add_member. constructor. Qed.

Lemma elem_of_members ns x : x ∈ members ns ↔ x ∈ ns.
Proof.
  unfold members. rewrite elem_of_foldl_add_member.
  split; [intros [?%elem_of_nil|?]; done | by right].
Qed.

Lemma members_distinct ns : NoDup ns → members ns = ns.
Proof. intros Hnd. by apply (foldl_add_member_fresh ns []). Qed.

(** The number of members is the number of distinct identities inserted. *)
Lemma length_members ns :
  length (members ns) = size (list_to_set ns : gset addr).
Proof.
  rewrite <- (size_list_to_set (C:=gset addr) (members ns))
    by apply members_NoDup.
  f_equal. apply set_eq. intros x.
  by rewrite !elem_of_list_to_set, elem_of_members.
Qed.

End Members.

(** ** Insertion keeps the list well formed *)

Section Invariant.

Context {T : Type}.
Implicit Types (m : machine T) (l ns : list addr) (n t : addr).

Lemma is_Some_insert (h : gmap addr (node T)) a (nd : node T) x :
  is_Some (h !! a) → is_Some (<[a := nd]> h !! x) ↔ is_Some (h !! x).
Proof.
  intros Ha. destruct (decide (a = x)) as [->|Hne].
  - rewrite lookup_insert_eq. split; eauto.
  - by rewrite lookup_insert_ne.
Qed.

(** One insertion of an allocated node, whatever the node: it returns, and
    the list is the old one with the node appended unless it was a member. *)
Lemma SLIST_add_step m l n fuel :
  is_list (heap m) (head m) l → is_Some (heap m !! n) → length l ≤ fuel →
  ∃ m', SLIST_add fuel n m = Done (tt, m') ∧
        is_list (heap m') (head m') (add_member l n) ∧
        ∀ x, is_Some (heap m' !! x) ↔ is_Some (heap m !! x).
Proof.
  intros Hl [nd Hn] Hfuel.
  destruct l as [|t l _] using rev_ind.
  - unfold is_list in Hl. simpl in Hl.
    eexists. split; [by apply SLIST_add_empty|]. simpl. split.
    + unfold add_member. rewrite decide_False by apply not_elem_of_nil.
      simpl. eapply lseg_cons; [apply lookup_insert_eq | done].
    + intros x. by apply is_Some_insert.
  - rewrite length_app in Hfuel. simpl in Hfuel.
    unfold add_member. case_decide as Hin.
    + apply elem_of_app in Hin as [Hin| ->%list_elem_of_singleton].
      * apply list_elem_of_split in Hin as (l1 & l2 & ->).
        rewrite <- app_assoc in Hl. simpl in Hl.
        exists m. split; [|split; [|done]].
        -- eapply SLIST_add_dup; [done | by destruct l2 |].
           rewrite length_app in Hfuel. lia.
        -- by rewrite <- app_assoc.
      * eexists. split; [eapply SLIST_add_tail; [done | lia]|]. done.
    + pose proof Hl as Hl'. apply is_list_snoc in Hl' as (_ & ndt & Ht & _).
      eexists. split; [eapply SLIST_add_fresh; [done.. | lia]|]. simpl. split.
      * by apply is_list_append.
      * intros x. rewrite is_Some_insert.
        -- apply is_Some_insert. eauto.
        -- apply is_Some_insert; eauto.
Qed.

(** Any sequence of insertions of allocated nodes. *)
Lemma add_all_members ns :
  ∀ m l fuel,
    is_list (heap m) (head m) l →
    Forall (λ n, is_Some (heap m !! n)) ns →
    length l + length ns ≤ fuel →
    ∃ m', add_all fuel ns m = Done (tt, m') ∧
          is_list (heap m') (head m') (foldl add_member l ns).
Proof.
  induction ns as [|n ns IH]; intros m l fuel Hl Hall Hfuel; simpl.
  - by exists m.
  - simpl in Hfuel. apply Forall_cons in Hall as [Hn Hall].
    destruct (SLIST_add_step m l n fuel) as (m1 & Hadd & Hl1 & Hdom);
      [done | done | lia |].
    destruct (IH m1 (add_member l n) fuel) as (m' & Hrest & Hl');
      [done | | |].
    + eapply Forall_impl; [done|]. intros x Hx. by apply Hdom.
    + pose proof (length_add_member l n). lia.
    + exists m'. split; [|done]. unfold bind. by rewrite Hadd.
Qed.

Lemma add_all_create (h0 : gmap addr (node T)) ns fuel :
  Forall (λ n, is_Some (h0 !! n)) ns → length ns ≤ fuel →
  ∃ m', add_all fuel ns (SLIST_CREATE_LIST h0) = Done (tt, m') ∧
        is_list (heap m') (head m') (members ns).
Proof.
  intros Hall Hfuel. by apply (add_all_members ns (SLIST_CREATE_LIST h0) []).
Qed.

End Invariant.

(** ** Insertion and traversal: the specified behaviour *)

Section Behaviour.

Context {T : Type}.
Implicit Types (m : machine T) (l ns : list addr) (n t : addr) (nd : node T).

(** C7.  On a freshly created list the traversal loop returns at once,
    whatever its body: the accumulator and the machine are untouched, so the
    body has run zero times; the loop yields no node and counts zero
    iterations.  No fuel is needed. *)
Theorem C7_fresh_list_no_iteration (h : gmap addr (node T)) (fuel : nat) :
  (∀ (A : Type) (body : addr → A → M T A) (acc : A),
      SLIST_FOR_EACH_NODE_PTR fuel body acc (SLIST_CREATE_LIST h)
      = Done (acc, SLIST_CREATE_LIST h)) ∧
  traverse fuel (SLIST_CREATE_LIST h) = Done ([], SLIST_CREATE_LIST h) ∧
  count_iterations fuel (SLIST_CREATE_LIST h) = Done (0, SLIST_CREATE_LIST h).
Proof.
  split_and!; [intros A body acc | |]; by destruct fuel.
Qed.

(** C8.  Inserting a node into an empty list makes it the head, with its
    [next] link none, so that the list is exactly that one node; the payload
    is kept and the prior value of the node's [next] does not matter. *)
Theorem C8_insert_into_empty m n nd fuel :
  head m = None → heap m !! n = Some nd →
  ∃ m', SLIST_add fuel n m = Done (tt, m') ∧
        head m' = Some n ∧
        heap m' !! n = Some (Node (data nd) None) ∧
        is_list (heap m') (head m') [n].
Proof.
  intros Hhd Hn. eexists. split; [by apply SLIST_add_empty|]. simpl.
  split_and!; [done | apply lookup_insert_eq |].
  eapply lseg_cons; [apply lookup_insert_eq | done].
Qed.

(** C2.  Inserting N pairwise distinct (allocated) nodes [n1 .. nN] into a
    freshly created list, in that order, terminates, and the traversal
    afterwards yields exactly [n1 .. nN] in that order, in N iterations. *)
Theorem C2_distinct_insertions_fifo (h0 : gmap addr (node T)) ns fuel :
  NoDup ns → Forall (λ n, is_Some (h0 !! n)) ns → length ns ≤ fuel →
  ∃ m, add_all fuel ns (SLIST_CREATE_LIST h0) = Done (tt, m) ∧
       traverse fuel m = Done (ns, m) ∧
       count_iterations fuel m = Done (length ns, m).
Proof.
  intros Hnd Hall Hfuel.
  destruct (add_all_create h0 ns fuel) as (m & Hrun & Hl); [done..|].
  rewrite members_distinct in Hl by done.
  exists m. split_and!; [done | by apply traverse_is_list |
                         by apply count_is_list].
Qed.

(** C3.  Inserting a node that is already a member at a position strictly
    before the tail terminates and changes neither the traversal sequence
    nor the number of elements. *)
Theorem C3_member_before_tail_noop m l1 l2 n fuel :
  is_list (heap m) (head m) (l1 ++ n :: l2) → l2 ≠ [] →
  length (l1 ++ n :: l2) ≤ fuel →
  ∃ m', SLIST_add fuel n m = Done (tt, m') ∧
        traverse fuel m = Done (l1 ++ n :: l2, m) ∧
        traverse fuel m' = Done (l1 ++ n :: l2, m') ∧
        count_iterations fuel m = Done (length (l1 ++ n :: l2), m) ∧
        count_iterations fuel m' = Done (length (l1 ++ n :: l2), m').
Proof.
  intros Hl Hl2 Hfuel. exists m.
  assert (length l1 ≤ fuel) by (rewrite length_app in Hfuel; lia).
  split_and!; [by eapply SLIST_add_dup | by apply traverse_is_list.. |
               by apply count_is_list | by apply count_is_list].
Qed.

(** C9.  When the walk finds the node strictly before the tail, the
    insertion returns having executed no store: the machine, with its
    record of stores, is the one it started from, and the node's own
    [next] field is as it was. *)
Theorem C9_duplicate_path_writes_nothing m l1 l2 n fuel :
  is_list (heap m) (head m) (l1 ++ n :: l2) → l2 ≠ [] → length l1 ≤ fuel →
  ∃ m', SLIST_add fuel n m = Done (tt, m') ∧
        trace m' = trace m ∧ heap m' = heap m ∧ head m' = head m ∧
        next <$> heap m' !! n = next <$> heap m !! n.
Proof.
  intros Hl Hl2 Hfuel. exists m. split; [by eapply SLIST_add_dup | done].
Qed.

(** C1 (as the code has it).  When the node passed is the current tail, the
    walk leaves at it without detecting the duplicate and [tail->next = tail]
    is stored; the final [node->next = NULL] then stores over that link.  The
    insertion returns with the nodes and the list handle exactly as they
    were: the tail's [next] is none, the list is not cyclic, and the
    traversal afterwards terminates and yields the same sequence. *)
Theorem C1_tail_reinsert_restores_list m l t fuel :
  is_list (heap m) (head m) (l ++ [t]) → length l ≤ fuel →
  ∃ m', SLIST_add fuel t m = Done (tt, m') ∧
        trace m' = trace m ++ [WrNext t (Some t); WrNext t None] ∧
        heap m' = heap m ∧ head m' = head m ∧
        next <$> heap m' !! t = Some None ∧
        traverse (S fuel) m' = Done (l ++ [t], m').
Proof.
  intros Hl Hfuel. eexists. split; [by eapply SLIST_add_tail|]. simpl.
  pose proof Hl as Hl'. apply is_list_snoc in Hl' as (_ & nd & Ht & Hnx).
  split_and!; try done.
  - by rewrite Ht, <- Hnx.
  - apply traverse_is_list; [done|]. rewrite length_app. simpl. lia.
Qed.

(** C4.  Any sequence of insertions of allocated nodes into a freshly
    created list, repeated nodes included, terminates and leaves a chain
    that reaches none from the head: the traversal ends after as many steps
    as the list has members, which is the number of distinct identities
    inserted. *)
Theorem C4_insertions_keep_list_acyclic (h0 : gmap addr (node T)) ns fuel :
  Forall (λ n, is_Some (h0 !! n)) ns → length ns ≤ fuel →
  ∃ m, add_all fuel ns (SLIST_CREATE_LIST h0) = Done (tt, m) ∧
       is_list (heap m) (head m) (members ns) ∧
       count_iterations fuel m = Done (length (members ns), m) ∧
       length (members ns) = size (list_to_set ns : gset addr).
Proof.
  intros Hall Hfuel.
  destruct (add_all_create h0 ns fuel) as (m & Hrun & Hl); [done..|].
  exists m. split_and!; [done | done | | apply length_members].
  apply count_is_list; [done|].
  pose proof (length_foldl_add_member ns []). unfold members. simpl in *. lia.
Qed.

(** C5.  After any sequence of insertions of allocated nodes into a freshly
    created list, the traversal yields every inserted address, and each of
    them once: membership goes by address, whatever the payloads are. *)
Theorem C5_insertions_keep_identities_unique
    (h0 : gmap addr (node T)) ns fuel :
  Forall (λ n, is_Some (h0 !! n)) ns → length ns ≤ fuel →
  ∃ m l, add_all fuel ns (SLIST_CREATE_LIST h0) = Done (tt, m) ∧
         traverse fuel m = Done (l, m) ∧
         NoDup l ∧ ∀ a, a ∈ l ↔ a ∈ ns.
Proof.
  intros Hall Hfuel.
  destruct (add_all_create h0 ns fuel) as (m & Hrun & Hl); [done..|].
  exists m, (members ns).
  split_and!; [done | | apply members_NoDup | apply elem_of_members].
  apply traverse_is_list; [done|].
  pose proof (length_foldl_add_member ns []). unfold members. simpl in *. lia.
Qed.

(** C6 (as the code has it).  An insertion of a node that is not a member
    appends it.  Its stores are: the [next] field of the previous tail when
    the list has one, and then the head reference is not stored; the head
    reference when the list is empty, and then no member's [next] is stored
    (there is none); and in both cases the [next] field of the inserted node,
    set to none.  Every other node is unchanged and so is every payload. *)
Theorem C6_frame_of_append m l n nd fuel :
  is_list (heap m) (head m) l → n ∉ l → heap m !! n = Some nd →
  length l ≤ fuel →
  ∃ m', SLIST_add fuel n m = Done (tt, m') ∧
        is_list (heap m') (head m') (l ++ [n]) ∧
        trace m' = trace m ++
                   match last l with
                   | Some t => [WrNext t (Some n); WrNext n None]
                   | None => [WrHead (Some n); WrNext n None; WrNext n None]
                   end ∧
        head m' = match last l with Some _ => head m | None => Some n end ∧
        (∀ t, last l = Some t →
              next <$> heap m !! t = Some None ∧
              next <$> heap m' !! t = Some (Some n)) ∧
        heap m' !! n = Some (Node (data nd) None) ∧
        (∀ b, b ≠ n → last l ≠ Some b → heap m' !! b = heap m !! b) ∧
        (∀ b, data <$> heap m' !! b = data <$> heap m !! b).
Proof.
  intros Hl Hnot Hn Hfuel.
  destruct l as [|t l _] using rev_ind.
  - unfold is_list in Hl. simpl in Hl.
    eexists. split; [by apply SLIST_add_empty|]. simpl.
    split_and!; try done.
    + eapply lseg_cons; [apply lookup_insert_eq | done].
    + apply lookup_insert_eq.
    + intros b Hb _. by rewrite lookup_insert_ne.
    + intros b. destruct (decide (b = n)) as [->|Hb].
      * by rewrite lookup_insert_eq, Hn.
      * by rewrite lookup_insert_ne.
  - rewrite length_app in Hfuel. simpl in Hfuel.
    pose proof Hl as Hl'. apply is_list_snoc in Hl' as (_ & ndt & Ht & Hnx).
    pose proof Hnot as Hnot'.
    apply not_elem_of_app in Hnot' as [_ Hnt].
    apply not_elem_of_cons in Hnt as [Hnt _].
    eexists. split; [eapply SLIST_add_fresh; [done.. | lia]|]. simpl.
    rewrite last_snoc.
    split_and!; try done.
    + by apply is_list_append.
    + intros t' [= <-]. rewrite lookup_insert_ne by done.
      rewrite lookup_insert_eq, Ht. simpl. by rewrite Hnx.
    + apply lookup_insert_eq.
    + intros b Hbn Hbt. rewrite !lookup_insert_ne; [done | | done].
      intros ->. done.
    + intros b. destruct (decide (b = n)) as [->|Hb].
      { by rewrite lookup_insert_eq, Hn. }
      rewrite lookup_insert_ne by done.
      destruct (decide (b = t)) as [->|Hb'].
      * by rewrite lookup_insert_eq, Ht.
      * by rewrite lookup_insert_ne.
Qed.

(** C10.  When the node is not found before the tail (the list is empty, or
    the walk leaves at the tail), the last store of the insertion is
    [node->next = NULL], whatever [next] held before the call; the node
    keeps its payload and the result is a well-formed list, so a caller
    need not initialise [next]. *)
Theorem C10_final_store_clears_next m l n nd fuel :
  is_list (heap m) (head m) l → n ∉ removelast l → heap m !! n = Some nd →
  length l ≤ fuel →
  ∃ m', SLIST_add fuel n m = Done (tt, m') ∧
        last (trace m') = Some (WrNext n None) ∧
        heap m' !! n = Some (Node (data nd) None) ∧
        is_list (heap m') (head m') (add_member l n).
Proof.
  intros Hl Hnot Hn Hfuel.
  destruct l as [|t l _] using rev_ind.
  - unfold is_list in Hl. simpl in Hl.
    eexists. split; [by apply SLIST_add_empty|]. simpl.
    split_and!.
    + by rewrite last_app.
    + apply lookup_insert_eq.
    + unfold add_member. rewrite decide_False by apply not_elem_of_nil.
      eapply lseg_cons; [apply lookup_insert_eq | done].
  - rewrite length_app in Hfuel. simpl in Hfuel.
    rewrite removelast_last in Hnot.
    pose proof Hl as Hl'. apply is_list_snoc in Hl' as (_ & ndt & Ht & Hnx).
    destruct (decide (n = t)) as [->|Hnt].
    + eexists. split; [eapply SLIST_add_tail; [done | lia]|]. simpl.
      split_and!.
      * by rewrite last_app.
      * rewrite Hn. rewrite Hn in Ht. injection Ht as ->.
        destruct ndt as [d nx]. simpl in *. by subst nx.
      * unfold add_member. rewrite decide_True; [done|].
        apply elem_of_app. right. by left.
    + assert (n ∉ l ++ [t]) as Hfresh.
      { apply not_elem_of_app. split; [done|].
        by intros ->%list_elem_of_singleton. }
      eexists. split; [eapply SLIST_add_fresh; [done.. | lia]|]. simpl.
      split_and!.
      * by rewrite last_app.
      * apply lookup_insert_eq.
      * unfold add_member. rewrite decide_False by done.
        by apply is_list_append.
Qed.

End Behaviour.

(** ** The properties on the demo's memory *)

Section Demo.

(** [demo/main.c]: [a1 .. a5] are inserted, [a5] a second time, and the list
    is printed after each insertion. *)
Example demo_main_prints :
  map (λ k, eval (bind (add_all 6 (take k [a1; a2; a3; a4; a5; a5]))
                       (λ _, payloads 6))
                 (SLIST_CREATE_LIST demo_nodes))
      [1; 2; 3; 4; 5; 6]
  = [Done [1%N]; Done [1%N; 2%N]; Done [1%N; 2%N; 3%N];
     Done [1%N; 2%N; 3%N; 4%N]; Done [1%N; 2%N; 3%N; 4%N; 5%N];
     Done [1%N; 2%N; 3%N; 4%N; 5%N]].
Proof. vm_compute. reflexivity. Qed.

(** A chain that does loop (built by hand, not by insertion) exhausts any
    bound given to the traversal; here with the bound 50. *)
Example hand_made_cycle_exhausts_fuel :
  eval (traverse 50)
       (Machine (<[a3 := Node 3%N (Some a3)]> (heap demo_linked)) (Some a1) [])
  = OutOfFuel.
Proof. vm_compute. reflexivity. Qed.

(** The empty-list insertion of [a1], whose [next] held a stale pointer. *)
Lemma C8_insert_into_empty_witness :
  head (SLIST_CREATE_LIST demo_nodes) = None ∧
  heap (SLIST_CREATE_LIST demo_nodes) !! a1 = Some (Node 1%N (Some a3)) ∧
  ∃ m', SLIST_add 0 a1 (SLIST_CREATE_LIST demo_nodes) = Done (tt, m') ∧
        head m' = Some a1 ∧
        heap m' !! a1 = Some (Node 1%N None) ∧
        is_list (heap m') (head m') [a1].
Proof.
  split; [reflexivity|]. split; [reflexivity|].
  apply (C8_insert_into_empty (SLIST_CREATE_LIST demo_nodes) a1
           (Node 1%N (Some a3)) 0); reflexivity.
Defined.

(** The demo's five insertions. *)
Lemma C2_distinct_insertions_fifo_witness :
  NoDup [a1; a2; a3; a4; a5] ∧
  Forall (λ n, is_Some (demo_nodes !! n)) [a1; a2; a3; a4; a5] ∧
  ∃ m, add_all 5 [a1; a2; a3; a4; a5] (SLIST_CREATE_LIST demo_nodes) = Done (tt, m) ∧
       traverse 5 m = Done ([a1; a2; a3; a4; a5], m) ∧
       count_iterations 5 m = Done (5%nat, m).
Proof.
  split; [compute_done|]. split; [compute_done|].
  apply (C2_distinct_insertions_fifo demo_nodes [a1; a2; a3; a4; a5] 5);
    [compute_done | compute_done | simpl; lia].
Defined.

(** Inserting [a2] again into the list [a1, a2, a3]. *)
Lemma C3_member_before_tail_noop_witness :
  is_list (heap demo_linked) (head demo_linked) ([a1] ++ a2 :: [a3]) ∧
  ∃ m', SLIST_add 3 a2 demo_linked = Done (tt, m') ∧
        traverse 3 demo_linked = Done ([a1] ++ a2 :: [a3], demo_linked) ∧
        traverse 3 m' = Done ([a1] ++ a2 :: [a3], m') ∧
        count_iterations 3 demo_linked = Done (3%nat, demo_linked) ∧
        count_iterations 3 m' = Done (3%nat, m').
Proof.
  split; [vm_compute; done|].
  apply (C3_member_before_tail_noop demo_linked [a1] [a3] a2 3);
    [vm_compute; done | discriminate | simpl; lia].
Defined.

(** Inserting the head [a1] again into the list [a1, a2, a3]. *)
Lemma C9_duplicate_path_writes_nothing_witness :
  is_list (heap demo_linked) (head demo_linked) ([] ++ a1 :: [a2; a3]) ∧
  ∃ m', SLIST_add 0 a1 demo_linked = Done (tt, m') ∧
        trace m' = trace demo_linked ∧ heap m' = heap demo_linked ∧
        head m' = head demo_linked ∧
        next <$> heap m' !! a1 = next <$> heap demo_linked !! a1.
Proof.
  split; [vm_compute; done|].
  apply (C9_duplicate_path_writes_nothing demo_linked [] [a2; a3] a1 0);
    [vm_compute; done | discriminate | simpl; lia].
Defined.

(** Inserting the tail [a3] again into the list [a1, a2, a3]. *)
Lemma C1_tail_reinsert_restores_list_witness :
  is_list (heap demo_linked) (head demo_linked) ([a1; a2] ++ [a3]) ∧
  ∃ m', SLIST_add 2 a3 demo_linked = Done (tt, m') ∧
        trace m' = trace demo_linked ++ [WrNext a3 (Some a3); WrNext a3 None] ∧
        heap m' = heap demo_linked ∧ head m' = head demo_linked ∧
        next <$> heap m' !! a3 = Some None ∧
        traverse 3 m' = Done ([a1; a2] ++ [a3], m').
Proof.
  split; [vm_compute; done|].
  apply (C1_tail_reinsert_restores_list demo_linked [a1; a2] a3 2);
    [vm_compute; done | simpl; lia].
Defined.

(** No cycle from inserting the tail again: after the tail
    [a3] of [a1, a2, a3] is inserted again, its [next] is none, not [a3],
    and the traversal terminates. *)
Lemma C1_tail_reinsert_counterexample :
  is_list (heap demo_linked) (head demo_linked) [a1; a2; a3] ∧
  ∃ m', SLIST_add 2 a3 demo_linked = Done (tt, m') ∧
        next <$> heap m' !! a3 = Some None ∧
        next <$> heap m' !! a3 ≠ Some (Some a3) ∧
        traverse 3 m' = Done ([a1; a2; a3], m') ∧
        ¬ (∀ fuel, traverse fuel m' = OutOfFuel).
Proof.
  split; [vm_compute; done|].
  exists (Machine (heap demo_linked) (head demo_linked)
                  [WrNext a3 (Some a3); WrNext a3 None]).
  split_and!; [vm_compute; reflexivity | vm_compute; reflexivity |
               vm_compute; discriminate | vm_compute; reflexivity |].
  intros H. specialize (H 3%nat). vm_compute in H. discriminate.
Qed.

(** The demo's run: five insertions, the last node twice. *)
Lemma C4_insertions_keep_list_acyclic_witness :
  Forall (λ n, is_Some (demo_nodes !! n)) [a1; a2; a3; a4; a5; a5] ∧
  ∃ m, add_all 6 [a1; a2; a3; a4; a5; a5] (SLIST_CREATE_LIST demo_nodes)
       = Done (tt, m) ∧
       is_list (heap m) (head m) (members [a1; a2; a3; a4; a5; a5]) ∧
       count_iterations 6 m = Done (length (members [a1; a2; a3; a4; a5; a5]), m) ∧
       length (members [a1; a2; a3; a4; a5; a5])
       = size (list_to_set [a1; a2; a3; a4; a5; a5] : gset addr).
Proof.
  split; [compute_done|].
  apply (C4_insertions_keep_list_acyclic demo_nodes [a1; a2; a3; a4; a5; a5] 6);
    [compute_done | simpl; lia].
Defined.

Lemma C5_insertions_keep_identities_unique_witness :
  Forall (λ n, is_Some (demo_nodes !! n)) [a1; a2; a2; a1; a3] ∧
  ∃ m l, add_all 5 [a1; a2; a2; a1; a3] (SLIST_CREATE_LIST demo_nodes)
         = Done (tt, m) ∧
         traverse 5 m = Done (l, m) ∧
         NoDup l ∧ ∀ a, a ∈ l ↔ a ∈ [a1; a2; a2; a1; a3].
Proof.
  split; [compute_done|].
  apply (C5_insertions_keep_identities_unique demo_nodes [a1; a2; a2; a1; a3] 5);
    [compute_done | simpl; lia].
Defined.

(** Appending [a4] to the list [a1, a2, a3]. *)
Lemma C6_frame_of_append_witness :
  is_list (heap demo_linked) (head demo_linked) [a1; a2; a3] ∧
  (a4 ∉ [a1; a2; a3]) ∧
  heap demo_linked !! a4 = Some (Node 4%N (Some a1)) ∧
  ∃ m', SLIST_add 3 a4 demo_linked = Done (tt, m') ∧
        is_list (heap m') (head m') ([a1; a2; a3] ++ [a4]) ∧
        trace m' = trace demo_linked ++
                   match last [a1; a2; a3] with
                   | Some t => [WrNext t (Some a4); WrNext a4 None]
                   | None => [WrHead (Some a4); WrNext a4 None; WrNext a4 None]
                   end ∧
        head m' = match last [a1; a2; a3] with
                  | Some _ => head demo_linked
                  | None => Some a4
                  end ∧
        (∀ t, last [a1; a2; a3] = Some t →
              next <$> heap demo_linked !! t = Some None ∧
              next <$> heap m' !! t = Some (Some a4)) ∧
        heap m' !! a4 = Some (Node 4%N None) ∧
        (∀ b, b ≠ a4 → last [a1; a2; a3] ≠ Some b →
              heap m' !! b = heap demo_linked !! b) ∧
        (∀ b, data <$> heap m' !! b = data <$> heap demo_linked !! b).
Proof.
  split; [vm_compute; done|]. split; [compute_done|]. split; [reflexivity|].
  apply (C6_frame_of_append demo_linked [a1; a2; a3] a4 (Node 4%N (Some a1)) 3);
    [vm_compute; done | compute_done | reflexivity | simpl; lia].
Defined.

(** The insertion into an empty list changes the list (from no member to
    [a1]) and stores no [next] field of a node that was a member: there was
    no member, the stores are to the head reference and to [a1] itself. *)
Lemma C6_empty_list_counterexample :
  is_list (heap (SLIST_CREATE_LIST demo_nodes))
          (head (SLIST_CREATE_LIST demo_nodes)) [] ∧
  ∃ m', SLIST_add 0 a1 (SLIST_CREATE_LIST demo_nodes) = Done (tt, m') ∧
        is_list (heap m') (head m') [a1] ∧
        trace m' = [WrHead (Some a1); WrNext a1 None; WrNext a1 None] ∧
        ¬ (∃ t p, t ∈ ([] : list addr) ∧ WrNext t p ∈ trace m').
Proof.
  split; [reflexivity|].
  exists (Machine (<[a1 := Node 1%N None]> demo_nodes) (Some a1)
                  [WrHead (Some a1); WrNext a1 None; WrNext a1 None]).
  split_and!; [vm_compute; reflexivity | vm_compute; done | reflexivity |].
  intros (t & p & Ht & _). by apply elem_of_nil in Ht.
Qed.

(** Appending [a5], whose [next] held a stale pointer, to [a1, a2, a3]. *)
Lemma C10_final_store_clears_next_witness :
  is_list (heap demo_linked) (head demo_linked) [a1; a2; a3] ∧
  (a5 ∉ removelast [a1; a2; a3]) ∧
  heap demo_linked !! a5 = Some (Node 5%N (Some a5)) ∧
  ∃ m', SLIST_add 3 a5 demo_linked = Done (tt, m') ∧
        last (trace m') = Some (WrNext a5 None) ∧
        heap m' !! a5 = Some (Node 5%N None) ∧
        is_list (heap m') (head m') (add_member [a1; a2; a3] a5).
Proof.
  split; [vm_compute; done|]. split; [compute_done|]. split; [reflexivity|].
  apply (C10_final_store_clears_next demo_linked [a1; a2; a3] a5
           (Node 5%N (Some a5)) 3);
    [vm_compute; done | compute_done | reflexivity | simpl; lia].
Defined.

End Demo.

(** ** More on the traversal loop *)

Section Traversal.

Context {T : Type}.
Implicit Types (m : machine T) (l : list addr) (p q : ptr).



(** What the collecting loop returns is a chain to [NULL] that the fuel
    covers, and the machine it started on. *)
Lemma traverse_from_inv m :
  ∀ fuel p acc r m',
    for_each_from fuel (λ a x, ret (x ++ [a])) p acc m = Done (r, m') →
    m' = m ∧ ∃ l, r = acc ++ l ∧ is_list (heap m) p l ∧ length l ≤ fuel.
Proof.
  induction fuel as [|fuel IH]; intros p acc r m' Hrun.
  - destruct p as [a|]; [done|]. injection Hrun as <- <-.
    split; [done|]. exists []. by rewrite app_nil_r.
  - destruct p as [a|].
    2:{ injection Hrun as <- <-. split; [done|]. exists [].
        rewrite app_nil_r. split_and!; [done | done | simpl; lia]. }
    simpl in Hrun. unfold bind at 1 in Hrun. simpl in Hrun.
    unfold bind at 1, load_next at 1 in Hrun.
    destruct (heap m !! a) as [nd|] eqn:Ha; [|done].
    apply IH in Hrun as (-> & l & -> & Hl & Hlen).
    split; [done|]. exists (a :: l). rewrite <- app_assoc.
    split_and!; [done | by eapply lseg_cons | simpl; lia].
Qed.

(** The loop that reads the payloads, on a well-formed list. *)
Lemma payloads_from_is_list m l :
  ∀ p acc fuel,
    is_list (heap m) p l → length l ≤ fuel →
    for_each_from fuel
      (λ a x, bind (load_data a) (λ d, ret (x ++ [d]))) p acc m
    = Done (acc ++ omap (λ a, data <$> heap m !! a) l, m).
Proof.
  induction l as [|a l IH]; intros p acc fuel Hl Hfuel.
  - unfold is_list in Hl. simpl in Hl. subst p. simpl.
    rewrite app_nil_r. by destruct fuel.
  - apply lseg_cons_inv in Hl as (-> & nd & Ha & Htl).
    destruct fuel as [|fuel]; simpl in Hfuel; [lia|].
    simpl. unfold bind at 1. unfold bind at 1, load_data at 1.
    rewrite Ha. unfold ret at 1. unfold bind at 1, load_next at 1.
    rewrite Ha. rewrite (IH (next nd)) by (done || lia).
    simpl. by rewrite <- app_assoc.
Qed.

Lemma payloads_is_list m l fuel :
  is_list (heap m) (head m) l → length l ≤ fuel →
  payloads fuel m = Done (omap (λ a, data <$> heap m !! a) l, m).
Proof.
  intros Hl Hfuel. unfold payloads, SLIST_FOR_EACH_NODE_PTR.
  unfold bind at 1, load_head. by rewrite (payloads_from_is_list m l).
Qed.

End Traversal.

(** ** More on the insertion *)

Section Frame.

Context {T : Type}.
Implicit Types (m : machine T) (l : list addr) (n t : addr) (p : ptr).

(** The loop of the insertion stores nothing, and where it leaves by its
    condition [curr->next] is [NULL]. *)
Lemma walk_inv n :
  ∀ fuel c m r m',
    walk fuel n c m = Done (r, m') →
    m' = m ∧
    ∀ t, r = Exited t → ∃ ndt, heap m !! t = Some ndt ∧ next ndt = None.
Proof.
  induction fuel as [|fuel IH]; intros c m r m' Hrun; simpl in Hrun;
    unfold bind, load_next in Hrun;
    destruct (heap m !! c) as [nd|] eqn:Hc; try done;
    destruct (next nd) as [nx|] eqn:Hnx.
  - case_decide; [|done]. injection Hrun as <- <-. by split.
  - injection Hrun as <- <-. split; [done|]. intros t [= <-]. eauto.
  - case_decide; [injection Hrun as <- <-; by split | by eapply IH].
  - injection Hrun as <- <-. split; [done|]. intros t [= <-]. eauto.
Qed.

(** The three results an insertion that returns can have, on any memory:
    nothing stored; the stores of the empty-list branch; or a node [t] whose
    [next] was [NULL] linked to [node], and [node->next] cleared. *)
Lemma SLIST_add_shape m n fuel m' :
  SLIST_add fuel n m = Done (tt, m') →
  m' = m ∨
  (head m = None ∧ ∃ nd,
     heap m !! n = Some nd ∧
     heap m' = <[n := Node (data nd) None]> (heap m) ∧ head m' = Some n) ∨
  (is_Some (head m) ∧ ∃ t ndt nd,
     heap m !! t = Some ndt ∧ next ndt = None ∧ heap m !! n = Some nd ∧
     heap m' = <[n := Node (data nd) None]>
                 (<[t := Node (data ndt) (Some n)]> (heap m)) ∧
     head m' = head m).
Proof.
  unfold SLIST_add, bind at 1, load_head. destruct (head m) as [c|] eqn:Hhd.
  - unfold bind at 1.
    destruct (walk fuel n c m) as [[r m1]| |] eqn:Hwalk; try done.
    apply walk_inv in Hwalk as (-> & Hexit).
    destruct r as [|t]; [intros [= <-]; by left|].
    destruct (Hexit t eq_refl) as (ndt & Ht & Hnx).
    unfold bind, store_next. rewrite Ht. simpl.
    destruct (decide (t = n)) as [->|Hne].
    + rewrite lookup_insert_eq. simpl. intros [= <-]. right. right.
      split; [done|]. exists n, ndt, ndt. simpl. by rewrite Hhd.
    + rewrite lookup_insert_ne by done.
      destruct (heap m !! n) as [nd|] eqn:Hn; [|done]. simpl.
      intros [= <-]. right. right. split; [done|]. exists t, ndt, nd.
      simpl. by rewrite Hhd.
  - unfold bind, store_head, store_next. simpl.
    destruct (heap m !! n) as [nd|] eqn:Hn; [|done]. simpl.
    rewrite lookup_insert_eq. simpl. rewrite insert_insert_eq.
    intros [= <-]. right. left. split; [done|]. by exists nd.
Qed.

(** An insertion that returns has changed no payload and no address's
    being allocated; a link of another node is changed only from [NULL] to
    the inserted node; a non-empty head reference is kept. *)
Lemma SLIST_add_frame m n fuel m' :
  SLIST_add fuel n m = Done (tt, m') →
  (∀ b, data <$> heap m' !! b = data <$> heap m !! b) ∧
  (∀ b, is_Some (heap m' !! b) ↔ is_Some (heap m !! b)) ∧
  (∀ b, b ≠ n →
        next <$> heap m' !! b = next <$> heap m !! b ∨
        (next <$> heap m !! b = Some None ∧
         next <$> heap m' !! b = Some (Some n))) ∧
  (is_Some (head m) → head m' = head m).
Proof.
  intros [->|[(Hhd & nd & Hn & Hh & Hhd')|(Hhd & t & ndt & nd & Ht & Hnx & Hn & Hh & Hhd')]]%SLIST_add_shape.
  - split_and!; try done. intros b _. by left.
  - rewrite Hh. split_and!.
    + intros b. destruct (decide (n = b)) as [<-|Hb].
      * by rewrite lookup_insert_eq, Hn.
      * by rewrite lookup_insert_ne.
    + intros b. by apply is_Some_insert.
    + intros b Hb. left. by rewrite lookup_insert_ne.
    + rewrite Hhd. by intros [? [=]].
  - rewrite Hh. split_and!; [| | |done].
    + intros b. destruct (decide (n = b)) as [<-|Hb].
      { by rewrite lookup_insert_eq, Hn. }
      rewrite lookup_insert_ne by done.
      destruct (decide (t = b)) as [<-|Hb'].
      * by rewrite lookup_insert_eq, Ht.
      * by rewrite lookup_insert_ne.
    + intros b. rewrite is_Some_insert.
      * apply is_Some_insert. eauto.
      * apply is_Some_insert; eauto.
    + intros b Hb. rewrite lookup_insert_ne by done.
      destruct (decide (t = b)) as [<-|Hb'].
      * right. rewrite lookup_insert_eq, Ht. simpl. by rewrite Hnx.
      * left. by rewrite lookup_insert_ne.
Qed.

Lemma add_all_data ns :
  ∀ fuel m m',
    add_all fuel ns m = Done (tt, m') →
    ∀ b, data <$> heap m' !! b = data <$> heap m !! b.
Proof.
  induction ns as [|n ns IH]; intros fuel m m' Hrun b; simpl in Hrun.
  - by injection Hrun as <-.
  - unfold bind in Hrun.
    destruct (SLIST_add fuel n m) as [[[] m1]| |] eqn:Hadd; try done.
    apply SLIST_add_frame in Hadd as (Hdata & _).
    rewrite (IH _ _ _ Hrun b). apply Hdata.
Qed.

(** Inserting a member again, the tail included, changes nothing in the
    nodes or the handle. *)
Lemma SLIST_add_again m l n fuel :
  is_list (heap m) (head m) l → n ∈ l → length l ≤ fuel →
  ∃ m', SLIST_add fuel n m = Done (tt, m') ∧
        heap m' = heap m ∧ head m' = head m.
Proof.
  intros Hl Hin Hfuel.
  apply list_elem_of_split in Hin as (l1 & l2 & ->).
  rewrite length_app in Hfuel. simpl in Hfuel.
  destruct l2 as [|x l2].
  - eexists. split; [eapply SLIST_add_tail; [done | lia]|]. done.
  - exists m. split; [|done].
    eapply SLIST_add_dup; [done | done | lia].
Qed.

(** Over a segment that holds no [node], the loop of the insertion either
    runs out of fuel inside it or goes on from its end. *)
Lemma walk_lseg m n l :
  ∀ c c' fuel,
    lseg (heap m) (Some c) l (Some c') → n ∉ l →
    walk fuel n c m
    = if decide (length l ≤ fuel) then walk (fuel - length l) n c' m
      else OutOfFuel.
Proof.
  induction l as [|a l IH]; intros c c' fuel Hl Hnot.
  - simpl in Hl. injection Hl as ->. simpl. by rewrite Nat.sub_0_r.
  - apply lseg_cons_inv in Hl as ([= ->] & nd & Ha & Htl).
    apply not_elem_of_cons in Hnot as [Hne Hnot].
    assert (∃ c1, next nd = Some c1) as [c1 Hnx].
    { destruct l; simpl in Htl; [eauto | destruct Htl; eauto]. }
    rewrite Hnx in Htl.
    destruct fuel as [|fuel]; simpl; unfold bind at 1, load_next at 1;
      rewrite Ha, Hnx; rewrite decide_False by done; [done|].
    rewrite (IH c1 c') by done.
    repeat case_decide; try done; lia.
Qed.

Lemma walk_cycle m n c l :
  lseg (heap m) (Some c) (c :: l) (Some c) → n ∉ c :: l →
  ∀ fuel, walk fuel n c m = OutOfFuel.
Proof.
  intros Hcyc Hnot fuel. induction (lt_wf fuel) as [fuel _ IH].
  rewrite (walk_lseg m n (c :: l) c c) by done.
  case_decide as Hle; [|done]. simpl in Hle. apply IH. simpl. lia.
Qed.

End Frame.

(** ** Payload stores and lists that share nodes *)

Section Sharing.

Context {T : Type}.
Implicit Types (h : gmap addr (node T)) (m : machine T) (l : list addr)
  (n t : addr) (p q : ptr).

(** A segment depends on the [next] fields only. *)
Lemma lseg_next_ext h h' l :
  (∀ b, next <$> h' !! b = next <$> h !! b) →
  ∀ p q, lseg h p l q → lseg h' p l q.
Proof.
  intros Hext. induction l as [|a l IH]; intros p q; simpl; [done|].
  intros [-> H]. split; [done|]. specialize (Hext a).
  destruct (h !! a) as [nd|]; [|done].
  destruct (h' !! a) as [nd'|]; [|done].
  injection Hext as Hext. rewrite Hext. by apply IH.
Qed.

Lemma lseg_elem_alloc h l :
  ∀ p q a, lseg h p l q → a ∈ l → is_Some (h !! a).
Proof.
  induction l as [|b l IH]; intros p q a Hl Hin.
  - by apply elem_of_nil in Hin.
  - apply lseg_cons_inv in Hl as (-> & nd & Hb & Htl).
    apply elem_of_cons in Hin as [->|Hin]; [eauto | by eapply IH].
Qed.

Lemma omap_const {A} (g : addr → option A) (v : A) l :
  (∀ a, a ∈ l → g a = Some v) → omap g l = replicate (length l) v.
Proof.
  induction l as [|a l IH]; intros Hg; simpl; [done|].
  rewrite (Hg a) by by left. simpl. f_equal. apply IH.
  intros b Hb. apply Hg. by right.
Qed.

Lemma omap_pointwise {A} (g g' : addr → option A) l :
  (∀ a, g a = g' a) → omap g l = omap g' l.
Proof.
  intros Hg. induction l as [|a l IH]; csimpl; [done|]. by rewrite Hg, IH.
Qed.

(** The loop with the body [node->data = v], over a well-formed list. *)
Lemma set_all_from v l :
  ∀ p m fuel,
    is_list (heap m) p l → length l ≤ fuel →
    ∃ m', for_each_from fuel (λ a _, store_data a v) p tt m = Done (tt, m') ∧
          head m' = head m ∧ trace m' = trace m ∧
          ∀ b, heap m' !! b
               = if decide (b ∈ l)
                 then (λ nd, Node v (next nd)) <$> heap m !! b
                 else heap m !! b.
Proof.
  induction l as [|a l IH]; intros p m fuel Hl Hfuel.
  - unfold is_list in Hl. simpl in Hl. subst p. exists m.
    split; [by destruct fuel|]. by split_and!.
  - pose proof (is_list_NoDup _ _ _ Hl) as Hnd.
    apply NoDup_cons in Hnd as [Hnot _].
    apply lseg_cons_inv in Hl as (-> & nd & Ha & Htl).
    destruct fuel as [|fuel]; simpl in Hfuel; [lia|].
    set (m1 := Machine (<[a := Node v (next nd)]> (heap m)) (head m) (trace m)).
    destruct (IH (next nd) m1 fuel) as (m' & Hrun & Hhd & Htr & Hheap);
      [| lia |].
    { unfold is_list. eapply lseg_next_ext; [|done]. intros b. simpl.
      destruct (decide (a = b)) as [<-|Hb].
      - by rewrite lookup_insert_eq, Ha.
      - by rewrite lookup_insert_ne. }
    exists m'. split_and!; [| done | done |].
    + simpl. unfold bind at 1, store_data at 1. rewrite Ha.
      fold m1. unfold bind at 1, load_next at 1. simpl.
      rewrite lookup_insert_eq. done.
    + intros b. rewrite Hheap. simpl.
      destruct (decide (b = a)) as [->|Hb].
      * rewrite decide_False by done. rewrite decide_True by by left.
        by rewrite lookup_insert_eq, Ha.
      * rewrite lookup_insert_ne by done.
        destruct (decide (b ∈ l)) as [Hin|Hin].
        -- rewrite decide_True; [done | by right].
        -- rewrite decide_False; [done|]. by intros [?|?]%elem_of_cons.
Qed.

End Sharing.

(** ** Further properties of traversal and insertion *)

Section Further.

Context {T : Type}.
Implicit Types (h : gmap addr (node T)) (m : machine T) (l ns : list addr)
  (n t : addr) (p q : ptr).

(** X1.  The traversal returns the sequence [l] exactly when the chain from
    the head is the well-formed list [l] and the fuel covers its length; it
    then leaves the machine as it found it. *)
Theorem traverse_returns_iff m fuel l m' :
  traverse fuel m = Done (l, m') ↔
  m' = m ∧ is_list (heap m) (head m) l ∧ length l ≤ fuel.
Proof.
  split.
  - unfold traverse, SLIST_FOR_EACH_NODE_PTR, bind, load_head.
    intros (-> & l' & -> & Hl & Hlen)%traverse_from_inv. done.
  - intros (-> & Hl & Hlen). by apply traverse_is_list.
Qed.


(** X3.  After any sequence of insertions of allocated nodes into a freshly
    created list, reading the payloads in a traversal (the demo's
    [print_list]) gives the payloads the caller had stored in the nodes, one
    per distinct node, in the order of first insertion. *)
Theorem payloads_after_insertions (h0 : gmap addr (node T)) ns fuel :
  Forall (λ n, is_Some (h0 !! n)) ns → length ns ≤ fuel →
  ∃ m, add_all fuel ns (SLIST_CREATE_LIST h0) = Done (tt, m) ∧
       payloads fuel m
       = Done (omap (λ a, data <$> h0 !! a) (members ns), m).
Proof.
  intros Hall Hfuel.
  destruct (add_all_create h0 ns fuel) as (m & Hrun & Hl); [done..|].
  exists m. split; [done|].
  rewrite (payloads_is_list m (members ns)); [| done |].
  - do 2 f_equal. apply omap_pointwise. intros a.
    by rewrite (add_all_data _ _ _ _ Hrun a).
  - pose proof (length_foldl_add_member ns []). unfold members.
    simpl in *. lia.
Qed.

(** X4.  On any memory, well formed or not, an insertion that returns has
    changed no payload and has neither added nor removed a node; the only
    link of another node it can change is a [NULL] that now points to the
    inserted node; and it keeps a head reference that was not [NULL]. *)
Theorem SLIST_add_frame_any_memory m n fuel m' :
  SLIST_add fuel n m = Done (tt, m') →
  (∀ b, data <$> heap m' !! b = data <$> heap m !! b) ∧
  (∀ b, is_Some (heap m' !! b) ↔ is_Some (heap m !! b)) ∧
  (∀ b, b ≠ n →
        next <$> heap m' !! b = next <$> heap m !! b ∨
        (next <$> heap m !! b = Some None ∧
         next <$> heap m' !! b = Some (Some n))) ∧
  (is_Some (head m) → head m' = head m).
Proof. apply SLIST_add_frame. Qed.

(** X5.  Inserting a node twice in a row is the same as inserting it once:
    the second call returns and leaves the nodes and the handle as the first
    call left them, whether the node was new, an inner member or the tail. *)
Theorem SLIST_add_twice m l n fuel :
  is_list (heap m) (head m) l → is_Some (heap m !! n) → length l < fuel →
  ∃ m1 m2, SLIST_add fuel n m = Done (tt, m1) ∧
           SLIST_add fuel n m1 = Done (tt, m2) ∧
           heap m2 = heap m1 ∧ head m2 = head m1 ∧
           is_list (heap m2) (head m2) (add_member l n).
Proof.
  intros Hl Hn Hfuel.
  destruct (SLIST_add_step m l n fuel) as (m1 & Hadd1 & Hl1 & _);
    [done | done | lia |].
  destruct (SLIST_add_again m1 (add_member l n) n fuel)
    as (m2 & Hadd2 & Hh & Hhd).
  - done.
  - apply elem_of_add_member. by right.
  - pose proof (length_add_member l n). lia.
  - exists m1, m2. split_and!; try done. by rewrite Hh, Hhd.
Qed.

(** X6.  An insertion of an allocated node into a well-formed list returns;
    the old sequence is a prefix of the new one (no member is removed or
    moved), the inserted node is a member afterwards, at most one node is
    added, and the head reference of a non-empty list stays the same. *)
Theorem SLIST_add_extends m l n fuel :
  is_list (heap m) (head m) l → is_Some (heap m !! n) → length l ≤ fuel →
  ∃ m' l', SLIST_add fuel n m = Done (tt, m') ∧
           is_list (heap m') (head m') l' ∧
           l `prefix_of` l' ∧ n ∈ l' ∧ length l' ≤ S (length l) ∧
           (l ≠ [] → head m' = head m).
Proof.
  intros Hl Hn Hfuel.
  destruct (SLIST_add_step m l n fuel) as (m' & Hadd & Hl' & _); [done..|].
  exists m', (add_member l n). split_and!; [done | done | | | |].
  - unfold add_member. case_decide; [done | by apply prefix_app_r].
  - apply elem_of_add_member. by right.
  - apply length_add_member.
  - intros Hne. apply SLIST_add_frame in Hadd as (_ & _ & _ & Hhd).
    apply Hhd. destruct l; [done|].
    apply lseg_cons_inv in Hl as [-> _]. eauto.
Qed.

(** X7.  A copy of the list handle (as [print_list] receives it) taken
    before a node is appended: if the list was non-empty the copy sees the
    new node, since it aliases the same chain; if the list was empty the
    copy is [NULL] and still traverses nothing, while the list itself now
    holds the node. *)
Theorem handle_copy_after_append m l n fuel :
  is_list (heap m) (head m) l → n ∉ l → is_Some (heap m !! n) →
  length l ≤ fuel →
  ∃ m', SLIST_add fuel n m = Done (tt, m') ∧
        traverse (S fuel) m' = Done (l ++ [n], m') ∧
        traverse_from (S fuel) (head m) m'
        = Done (match l with [] => [] | _ :: _ => l ++ [n] end, m').
Proof.
  intros Hl Hnot Hn Hfuel.
  destruct (SLIST_add_step m l n fuel) as (m' & Hadd & Hl' & _); [done..|].
  unfold add_member in Hl'. rewrite decide_False in Hl' by done.
  assert (length (l ++ [n]) ≤ S fuel) as Hlen.
  { rewrite length_app. simpl. lia. }
  exists m'. split_and!; [done | by apply traverse_is_list |].
  destruct l as [|a l].
  - unfold is_list in Hl. simpl in Hl. by rewrite Hl.
  - apply SLIST_add_frame in Hadd as (_ & _ & _ & Hhd).
    assert (is_Some (head m)) as Hsome.
    { apply lseg_cons_inv in Hl as [-> _]. eauto. }
    rewrite <- (Hhd Hsome). unfold traverse_from.
    rewrite (for_each_from_fold (λ a x, x ++ [a]) m' ((a :: l) ++ [n]))
      by done.
    by rewrite foldl_snoc.
Qed.

(** X8.  A node belongs to one list at a time.  When [x], a member of a
    list with handle [pA], is inserted into another list (the machine's)
    that does not hold it and shares no node with the part of the first
    list before [x], it is appended there, and the first list is cut after
    [x]: the nodes that followed [x] are no longer reached from [pA]. *)
Theorem SLIST_add_member_of_other_list m pA l1 l2 lB (x : addr) fuel :
  is_list (heap m) pA (l1 ++ x :: l2) →
  is_list (heap m) (head m) lB →
  x ∉ lB → (∀ y, y ∈ lB → y ∉ l1) → length lB ≤ fuel →
  ∃ m', SLIST_add fuel x m = Done (tt, m') ∧
        is_list (heap m') (head m') (lB ++ [x]) ∧
        is_list (heap m') pA (l1 ++ [x]).
Proof.
  intros HA HB Hx Hdisj Hfuel.
  pose proof (is_list_NoDup _ _ _ HA) as HndA.
  apply NoDup_app in HndA as (_ & HdA & _).
  assert (x ∉ l1) as Hxl1 by (intros ?; eapply HdA; [done | by left]).
  apply lseg_app in HA as (r & Hpre & Hsuf).
  apply lseg_cons_inv in Hsuf as (-> & nd & Hxa & _).
  destruct lB as [|t lB _] using rev_ind.
  - unfold is_list in HB. simpl in HB.
    eexists. split; [by apply SLIST_add_empty|]. simpl. split.
    + eapply lseg_cons; [apply lookup_insert_eq | done].
    + apply is_list_snoc. split; [by apply lseg_insert_ne|].
      eexists. split; [apply lookup_insert_eq | done].
  - rewrite length_app in Hfuel. simpl in Hfuel.
    pose proof HB as HB'. apply is_list_snoc in HB' as (_ & ndt & Ht & _).
    assert (t ∉ l1) as Htl1.
    { apply Hdisj, elem_of_app. right. by left. }
    eexists. split; [eapply SLIST_add_fresh; [done.. | lia]|]. simpl. split.
    + by apply is_list_append.
    + apply is_list_snoc. split.
      * apply lseg_insert_ne; [done|]. by apply lseg_insert_ne.
      * eexists. split; [apply lookup_insert_eq | done].
Qed.

(** X9.  The header's traversal example, [node->data = v] for each node: on
    a well-formed list it returns, every member then holds [v] and keeps its
    link, every other node is untouched, the list is the same sequence, and
    a traversal afterwards reads [v] once per member. *)
Theorem set_all_data_spec m l v fuel :
  is_list (heap m) (head m) l → length l ≤ fuel →
  ∃ m', set_all_data fuel v m = Done (tt, m') ∧
        is_list (heap m') (head m') l ∧
        (∀ b, heap m' !! b
              = if decide (b ∈ l)
                then (λ nd, Node v (next nd)) <$> heap m !! b
                else heap m !! b) ∧
        payloads fuel m' = Done (replicate (length l) v, m').
Proof.
  intros Hl Hfuel.
  destruct (set_all_from v l (head m) m fuel)
    as (m' & Hrun & Hhd & _ & Hheap); [done..|].
  assert (is_list (heap m') (head m') l) as Hl'.
  { rewrite Hhd. unfold is_list. eapply lseg_next_ext; [|done].
    intros b. rewrite Hheap. case_decide; [|done].
    by destruct (heap m !! b). }
  exists m'. split_and!; [| done | done |].
  - unfold set_all_data, SLIST_FOR_EACH_NODE_PTR, bind at 1, load_head.
    done.
  - rewrite (payloads_is_list m' l) by done. do 2 f_equal.
    apply omap_const. intros a Ha. rewrite Hheap.
    rewrite decide_True by done.
    destruct (lseg_elem_alloc _ _ _ _ _ Hl Ha) as [nd ->]. done.
Qed.

(** Insertion into a corrupted list, whose chain runs into a cycle. *)
Lemma SLIST_add_cycle_cases m l1 l2 c n :
  lseg (heap m) (head m) l1 (Some c) →
  lseg (heap m) (Some c) (c :: l2) (Some c) →
  (n ∉ l1 ++ c :: l2 → ∀ fuel, SLIST_add fuel n m = OutOfFuel) ∧
  (n ∈ l1 ++ c :: l2 → ∀ fuel, length (l1 ++ c :: l2) ≤ fuel →
     SLIST_add fuel n m = Done (tt, m)).
Proof.
  intros Hpre Hcyc.
  assert (lseg (heap m) (head m) (l1 ++ c :: l2) (Some c)) as Hall.
  { apply lseg_app. eauto. }
  assert (∃ c0, head m = Some c0) as [c0 Hc0].
  { destruct l1; simpl in Hpre; [eauto | destruct Hpre; eauto]. }
  split.
  - intros Hnot fuel. apply not_elem_of_app in Hnot as [Hn1 Hn2].
    unfold SLIST_add, bind at 1, load_head. rewrite Hc0. unfold bind.
    rewrite Hc0 in Hpre. rewrite (walk_lseg m n l1 c0 c) by done.
    case_decide; [|done]. by rewrite (walk_cycle m n c l2).
  - intros Hin fuel Hfuel.
    apply list_elem_of_split_l in Hin as (k1 & k2 & Heq & Hk1).
    rewrite Heq in Hall, Hfuel. rewrite length_app in Hfuel.
    apply lseg_app in Hall as (r & Hk & Hn).
    apply lseg_cons_inv in Hn as (-> & nd & Hnd & Htl).
    assert (∃ c1, next nd = Some c1) as [c1 Hnx].
    { destruct k2; simpl in Htl; [eauto | destruct Htl; eauto]. }
    unfold SLIST_add, bind at 1, load_head. rewrite Hc0. unfold bind.
    rewrite Hc0 in Hk. rewrite (walk_lseg m n k1 c0 n) by done.
    rewrite decide_True by lia.
    destruct (fuel - length k1); simpl; unfold bind, load_next;
      rewrite Hnd, Hnx; by rewrite decide_True.
Qed.

(** X10.  On a corrupted list, whose chain runs into a cycle, inserting a
    node that is not on the chain never returns: the walk finds neither the
    node nor a [NULL] link and is still circling when any fuel is used up. *)
Theorem SLIST_add_into_cycle_never_returns m l1 l2 c n :
  lseg (heap m) (head m) l1 (Some c) →
  lseg (heap m) (Some c) (c :: l2) (Some c) →
  n ∉ l1 ++ c :: l2 →
  ∀ fuel, SLIST_add fuel n m = OutOfFuel.
Proof.
  intros Hpre Hcyc. by apply (SLIST_add_cycle_cases m l1 l2 c n).
Qed.

(** X11.  On such a corrupted list, inserting a node that is on the chain
    returns and stores nothing: every node of the chain has a successor, so
    the walk meets the node before it could leave the loop. *)
Theorem SLIST_add_member_of_cycle m l1 l2 c n fuel :
  lseg (heap m) (head m) l1 (Some c) →
  lseg (heap m) (Some c) (c :: l2) (Some c) →
  n ∈ l1 ++ c :: l2 → length (l1 ++ c :: l2) ≤ fuel →
  SLIST_add fuel n m = Done (tt, m).
Proof.
  intros Hpre Hcyc Hin. by apply (SLIST_add_cycle_cases m l1 l2 c n).
Qed.

End Further.

(** ** The further properties on the demo's and the tests' memory *)

Section FurtherDemo.

(** [test_WhenTwoElements_ForEachFindsThoseTwoElements]: the loop meets the
    payloads (1, 2) and (3, 4), in that order, in two iterations. *)
Example test_two_elements :
  eval (bind (add_all 2 [a1; a2]) (λ _, payloads 2))
       (SLIST_CREATE_LIST test_nodes)
  = Done [STestType 1 2; STestType 3 4] ∧
  eval (bind (add_all 2 [a1; a2]) (λ _, count_iterations 2))
       (SLIST_CREATE_LIST test_nodes)
  = Done 2.
Proof. split; vm_compute; reflexivity. Qed.


Lemma payloads_after_insertions_witness :
  Forall (λ n, is_Some (demo_nodes !! n)) [a1; a2; a2; a5; a1] ∧
  ∃ m, add_all 5 [a1; a2; a2; a5; a1] (SLIST_CREATE_LIST demo_nodes)
       = Done (tt, m) ∧
       payloads 5 m
       = Done (omap (λ a, data <$> demo_nodes !! a)
                    (members [a1; a2; a2; a5; a1]), m).
Proof.
  split; [compute_done|].
  apply (payloads_after_insertions demo_nodes [a1; a2; a2; a5; a1] 5);
    [compute_done | simpl; lia].
Defined.

Lemma SLIST_add_frame_any_memory_witness :
  let m' := Machine (<[a4 := Node 4%N None]>
                       (<[a3 := Node 3%N (Some a4)]> (heap demo_linked)))
                    (Some a1) [WrNext a3 (Some a4); WrNext a4 None] in
  SLIST_add 3 a4 demo_linked = Done (tt, m') ∧
  (∀ b, data <$> heap m' !! b = data <$> heap demo_linked !! b) ∧
  (∀ b, is_Some (heap m' !! b) ↔ is_Some (heap demo_linked !! b)) ∧
  (∀ b, b ≠ a4 →
        next <$> heap m' !! b = next <$> heap demo_linked !! b ∨
        (next <$> heap demo_linked !! b = Some None ∧
         next <$> heap m' !! b = Some (Some a4))) ∧
  (is_Some (head demo_linked) → head m' = head demo_linked).
Proof.
  intros m'. split; [vm_compute; reflexivity|].
  apply (SLIST_add_frame_any_memory demo_linked a4 3 m').
  vm_compute. reflexivity.
Defined.

Lemma SLIST_add_twice_witness :
  is_list (heap demo_linked) (head demo_linked) [a1; a2; a3] ∧
  is_Some (heap demo_linked !! a4) ∧
  ∃ m1 m2, SLIST_add 4 a4 demo_linked = Done (tt, m1) ∧
           SLIST_add 4 a4 m1 = Done (tt, m2) ∧
           heap m2 = heap m1 ∧ head m2 = head m1 ∧
           is_list (heap m2) (head m2) (add_member [a1; a2; a3] a4).
Proof.
  split; [vm_compute; done|]. split; [compute_done|].
  apply (SLIST_add_twice demo_linked [a1; a2; a3] a4 4);
    [vm_compute; done | compute_done | simpl; lia].
Defined.

Lemma SLIST_add_extends_witness :
  is_list (heap demo_linked) (head demo_linked) [a1; a2; a3] ∧
  is_Some (heap demo_linked !! a2) ∧
  ∃ m' l', SLIST_add 3 a2 demo_linked = Done (tt, m') ∧
           is_list (heap m') (head m') l' ∧
           [a1; a2; a3] `prefix_of` l' ∧ a2 ∈ l' ∧
           length l' ≤ S (length [a1; a2; a3]) ∧
           ([a1; a2; a3] ≠ [] → head m' = head demo_linked).
Proof.
  split; [vm_compute; done|]. split; [compute_done|].
  apply (SLIST_add_extends demo_linked [a1; a2; a3] a2 3);
    [vm_compute; done | compute_done | simpl; lia].
Defined.

Lemma handle_copy_after_append_witness :
  is_list (heap demo_linked) (head demo_linked) [a1; a2; a3] ∧
  (a5 ∉ [a1; a2; a3]) ∧
  is_Some (heap demo_linked !! a5) ∧
  ∃ m', SLIST_add 3 a5 demo_linked = Done (tt, m') ∧
        traverse 4 m' = Done ([a1; a2; a3] ++ [a5], m') ∧
        traverse_from 4 (head demo_linked) m'
        = Done (match [a1; a2; a3] with
                | [] => []
                | _ :: _ => [a1; a2; a3] ++ [a5]
                end, m').
Proof.
  split; [vm_compute; done|]. split; [compute_done|]. split; [compute_done|].
  apply (handle_copy_after_append demo_linked [a1; a2; a3] a5 3);
    [vm_compute; done | compute_done | compute_done | simpl; lia].
Defined.

(** [a2], the middle of [a1, a2, a3], is inserted into the list [a4]: that
    list becomes [a4, a2] and the first one [a1, a2]. *)
Lemma SLIST_add_member_of_other_list_witness :
  is_list (heap demo_two_lists) (Some a1) ([a1] ++ a2 :: [a3]) ∧
  is_list (heap demo_two_lists) (head demo_two_lists) [a4] ∧
  (a2 ∉ [a4]) ∧
  (∀ y, y ∈ [a4] → y ∉ [a1]) ∧
  ∃ m', SLIST_add 1 a2 demo_two_lists = Done (tt, m') ∧
        is_list (heap m') (head m') ([a4] ++ [a2]) ∧
        is_list (heap m') (Some a1) ([a1] ++ [a2]).
Proof.
  assert (∀ y : addr, y ∈ [a4] → y ∉ [a1]) as Hdisj.
  { intros y ->%list_elem_of_singleton. compute_done. }
  split; [vm_compute; done|]. split; [vm_compute; done|].
  split; [compute_done|]. split; [exact Hdisj|].
  apply (SLIST_add_member_of_other_list demo_two_lists (Some a1)
           [a1] [a3] [a4] a2 1);
    [vm_compute; done | vm_compute; done | compute_done | exact Hdisj |
     simpl; lia].
Defined.

Lemma set_all_data_spec_witness :
  is_list (heap demo_linked) (head demo_linked) [a1; a2; a3] ∧
  ∃ m', set_all_data 3 0%N demo_linked = Done (tt, m') ∧
        is_list (heap m') (head m') [a1; a2; a3] ∧
        (∀ b, heap m' !! b
              = if decide (b ∈ [a1; a2; a3])
                then (λ nd, Node 0%N (next nd)) <$> heap demo_linked !! b
                else heap demo_linked !! b) ∧
        payloads 3 m' = Done (replicate (length [a1; a2; a3]) 0%N, m').
Proof.
  split; [vm_compute; done|].
  apply (set_all_data_spec demo_linked [a1; a2; a3] 0%N 3);
    [vm_compute; done | simpl; lia].
Defined.

Lemma SLIST_add_into_cycle_never_returns_witness :
  lseg (heap demo_looped) (head demo_looped) [a1] (Some a2) ∧
  lseg (heap demo_looped) (Some a2) (a2 :: [a3]) (Some a2) ∧
  (a4 ∉ [a1] ++ a2 :: [a3]) ∧
  ∀ fuel, SLIST_add fuel a4 demo_looped = OutOfFuel.
Proof.
  split; [vm_compute; done|]. split; [vm_compute; done|].
  split; [compute_done|].
  apply (SLIST_add_into_cycle_never_returns demo_looped [a1] [a3] a2 a4);
    [vm_compute; done | vm_compute; done | compute_done].
Defined.

Lemma SLIST_add_member_of_cycle_witness :
  lseg (heap demo_looped) (head demo_looped) [a1] (Some a2) ∧
  lseg (heap demo_looped) (Some a2) (a2 :: [a3]) (Some a2) ∧
  a3 ∈ [a1] ++ a2 :: [a3] ∧
  SLIST_add 3 a3 demo_looped = Done (tt, demo_looped).
Proof.
  split; [vm_compute; done|]. split; [vm_compute; done|].
  split; [compute_done|].
  apply (SLIST_add_member_of_cycle demo_looped [a1] [a3] a2 a3 3);
    [vm_compute; done | vm_compute; done | compute_done | simpl; lia].
Defined.

End FurtherDemo.
